(** * CatXL treaties and the optimal-window search of [helpers.py]

    A shallow embedding of the treaty generators [treaty_CatXL],
    [treaty_inuring_CatXL], [treaty_CatXL_program] and of the search
    [find_window], followed by the properties established about them.

    Numbers are modelled as [Z] with exact arithmetic; vectors (numpy
    arrays, Python lists) as [list Z].  A Python exception is a value
    of type [exn]; every function that can raise returns a [result].
    The [print] statements of [find_window] do not influence the
    returned value and are left out. *)

From Stdlib Require Import String ZArith List Lia Bool.
Import ListNotations.
Open Scope Z_scope.

(** ** Exceptions and the error monad *)

Inductive exn : Type :=
| AssertionError (msg : string)
| IndexError.

Inductive result (A : Type) : Type :=
| Ok (a : A)
| Raise (e : exn).

Arguments Ok {A} a.
Arguments Raise {A} e.

Definition bind {A B : Type} (m : result A) (k : A -> result B) : result B :=
  match m with
  | Ok a => k a
  | Raise e => Raise e
  end.

Notation "x <- m ;; k" := (bind m (fun x => k))
  (at level 61, m at next level, right associativity).

(** [assert cond, msg] *)
Definition assert (cond : bool) (msg : string) : result unit :=
  if cond then Ok tt else Raise (AssertionError msg).

(** A [for] loop whose body may raise, threading the loop state. *)
Fixpoint foldM {A S : Type} (body : S -> A -> result S) (xs : list A) (st : S)
  : result S :=
  match xs with
  | [] => Ok st
  | x :: xs' => st' <- body st x ;; foldM body xs' st'
  end.

(** Evaluating every element of a generator, in order. *)
Fixpoint mapM {A B : Type} (f : A -> result B) (xs : list A)
  : result (list B) :=
  match xs with
  | [] => Ok []
  | x :: xs' => y <- f x ;; ys <- mapM f xs' ;; Ok (y :: ys)
  end.

(** ** Python built-ins used by the source *)

(** [sum(xs)]: starts from 0 and adds from the left. *)
Definition sum (xs : list Z) : Z := fold_left Z.add xs 0.

(** [enumerate(xs)], and the same counting from [k]. *)
Definition enumerate_from {A : Type} (k : nat) (xs : list A) : list (nat * A) :=
  combine (seq k (length xs)) xs.

Definition enumerate {A : Type} (xs : list A) : list (nat * A) :=
  enumerate_from 0 xs.

(** [xs[i]] for an index [i >= 0]: out of range raises [IndexError]. *)
Definition index {A : Type} (xs : list A) (i : nat) : result A :=
  match nth_error xs i with
  | Some x => Ok x
  | None => Raise IndexError
  end.

(** [ts < bound] on a numpy array: the element-wise boolean mask. *)
Definition mask_lt (ts : list Z) (bound : Z) : list bool :=
  map (fun x => x <? bound) ts.

(** [xs[mask]] on a numpy array: the elements selected by a boolean
    mask; a mask whose length differs from the array's raises
    [IndexError]. *)
Fixpoint bool_index (xs : list Z) (mask : list bool) : result (list Z) :=
  match xs, mask with
  | [], [] => Ok []
  | x :: xs', b :: mask' =>
      r <- bool_index xs' mask' ;; Ok (if b then x :: r else r)
  | _, _ => Raise IndexError
  end.

(** ** Treaty generators *)

(** A treaty function: from the losses of a window to a payout. *)
Definition treaty : Type := list Z -> result Z.

(** [min(max(total - deductible, 0), limit - deductible)] *)
Definition clamp (x lo hi : Z) : Z := Z.min (Z.max x lo) hi.

Definition treaty_CatXL (deductible limit : Z) : result treaty :=
  _ <- assert (limit >? deductible) "Limit cannot be less than deductible." ;;
  Ok (fun losses =>
        Ok (Z.min (Z.max (sum losses - deductible) 0) (limit - deductible))).

Definition treaty_inuring_CatXL (d1 l1 d2 l2 : Z) : result treaty :=
  _ <- assert ((l1 >? d1) && (l2 >? d2))
         "Limits cannot be less than deductibles." ;;
  Ok (fun losses =>
        f1 <- treaty_CatXL d1 l1 ;;
        payout1 <- f1 losses ;;
        let leftover := sum losses - payout1 in
        let payout2 := Z.min (Z.max (leftover - d2) 0) (l2 - d2) in
        Ok (payout1 + payout2)).

(** The body of the validating loop of [treaty_CatXL_program]. *)
Definition program_check (lVec : list Z) (_ : unit) (it : nat * Z)
  : result unit :=
  let '(i, d) := it in
  li <- index lVec i ;;
  _ <- assert (d <? li) "Limits cannot be less than attachment points." ;;
  if (0 <? i)%nat then
    lp <- index lVec (i - 1) ;;
    assert (d >=? lp) "No overlaps are allowed."
  else Ok tt.

Definition treaty_CatXL_program (dVec lVec : list Z) : result treaty :=
  _ <- foldM (program_check lVec) (enumerate dVec) tt ;;
  Ok (fun losses =>
        payouts <- mapM (fun it : nat * Z =>
                           let '(i, d) := it in
                           li <- index lVec i ;;
                           f <- treaty_CatXL d li ;;
                           f losses)
                        (enumerate dVec) ;;
        Ok (sum payouts)).

(** ** The window search *)

(** The running maximum and the best times found so far. *)
Definition scan_state : Type := (Z * list Z)%type.

(** The two branches that close the body of the loop. *)
Definition update (st : scan_state) (t payout : Z) : scan_state :=
  let '(maxPayout, bestTimes) := st in
  if payout =? maxPayout then (maxPayout, bestTimes ++ [t])
  else if payout >? maxPayout then (payout, [t])
  else (maxPayout, bestTimes).

Definition loop_body (windowLen : Z) (treatyFunc : treaty)
    (timeVec lossVec : list Z) (st : scan_state) (it : nat * Z)
  : result scan_state :=
  let '(i, t) := it in
  let curTimes := mask_lt (skipn i timeVec) (t + windowLen) in
  curLosses <- bool_index (skipn i lossVec) curTimes ;;
  payout <- treatyFunc curLosses ;;
  Ok (update st t payout).

(** The returned triple [bestTimes[0], bestTimes, maxPayout]. *)
Record WindowResult : Type := mkWindowResult {
  canonicalBestTime : Z;
  allBestTimes : list Z;
  maxPayout : Z
}.

Definition find_window (windowLen : Z) (treatyFunc : treaty)
    (timeVec lossVec : list Z) : result WindowResult :=
  st <- foldM (loop_body windowLen treatyFunc timeVec lossVec)
          (enumerate timeVec) (0, []) ;;
  let '(maxPayout, bestTimes) := st in
  best0 <- index bestTimes 0 ;;
  Ok (mkWindowResult best0 bestTimes maxPayout).

(** ** Timelines as sequences of events

    The caller holds a timeline of [(time, amount)] events and passes
    its two columns to [find_window]. *)

Definition timeline : Type := list (Z * Z).

Definition times (events : timeline) : list Z := map fst events.
Definition amounts (events : timeline) : list Z := map snd events.

(** The amounts of the events of [suffix] that fall before [bound]. *)
Definition window_amounts (suffix : timeline) (bound : Z) : list Z :=
  amounts (filter (fun e => fst e <? bound) suffix).

(** The window anchored at the first event of [suffix]. *)
Definition anchor_window (windowLen : Z) (suffix : timeline) : list Z :=
  match suffix with
  | [] => []
  | e :: _ => window_amounts suffix (fst e + windowLen)
  end.

(** The search seen from one anchor to the next: the same loop with
    the two slices [timeVec[i:]] and [lossVec[i:]] carried along. *)
Fixpoint scan (windowLen : Z) (treatyFunc : treaty) (ts ls : list Z)
    (st : scan_state) : result scan_state :=
  match ts with
  | [] => Ok st
  | t :: ts' =>
      curLosses <- bool_index ls (mask_lt ts (t + windowLen)) ;;
      payout <- treatyFunc curLosses ;;
      scan windowLen treatyFunc ts' (tl ls) (update st t payout)
  end.

(** The payout of every anchor of a timeline, in scan order. *)
Fixpoint anchor_payouts (windowLen : Z) (treatyFunc : treaty)
    (events : timeline) : result (list Z) :=
  match events with
  | [] => Ok []
  | _ :: rest =>
      payout <- treatyFunc (anchor_window windowLen events) ;;
      payouts <- anchor_payouts windowLen treatyFunc rest ;;
      Ok (payout :: payouts)
  end.

(** The updates of the loop applied to a list of [(t, payout)] items. *)
Definition run_updates (st : scan_state) (items : list (Z * Z)) : scan_state :=
  fold_left (fun st' it => update st' (fst it) (snd it)) items st.

(** The largest of [m0] and the payouts. *)
Definition running_max (m0 : Z) (payouts : list Z) : Z :=
  fold_left Z.max payouts m0.

(** The times of the items whose payout is [m]. *)
Definition times_paying (m : Z) (items : list (Z * Z)) : list Z :=
  map fst (filter (fun it => snd it =? m) items).

(** Times in ascending order. *)
Fixpoint ascending (ts : list Z) : bool :=
  match ts with
  | t :: ((t' :: _) as rest) => (t <=? t') && ascending rest
  | _ => true
  end.

(** A treaty function that never raises and never pays a negative
    amount, as every treaty built by the three generators does. *)
Definition pays_nonneg (treatyFunc : treaty) : Prop :=
  forall losses, exists payout, treatyFunc losses = Ok payout /\ 0 <= payout.

(** The treaty functions that the three generators of the source build. *)
Inductive generated : treaty -> Prop :=
| generated_CatXL (d l : Z) (f : treaty) :
    treaty_CatXL d l = Ok f -> generated f
| generated_inuring_CatXL (d1 l1 d2 l2 : Z) (f : treaty) :
    treaty_inuring_CatXL d1 l1 d2 l2 = Ok f -> generated f
| generated_CatXL_program (dVec lVec : list Z) (f : treaty) :
    treaty_CatXL_program dVec lVec = Ok f -> generated f.

(** The layers of a program, bottom-up, each a [(deductible, limit)]
    pair; [treaty_CatXL_program] receives the two columns. *)
Definition layers : Type := list (Z * Z).

Definition deductibles (prog : layers) : list Z := map fst prog.
Definition limits (prog : layers) : list Z := map snd prog.

(** Each later layer attaches at or above the previous layer's limit. *)
Fixpoint no_overlap (prog : layers) : bool :=
  match prog with
  | (_, lp) :: (((d, _) :: _) as rest) => (d >=? lp) && no_overlap rest
  | _ => true
  end.

(** A validated program: every deductible is below its limit and no
    two consecutive layers overlap. *)
Definition validated (prog : layers) : bool :=
  forallb (fun layer => fst layer <? snd layer) prog && no_overlap prog.

(** The full width [limit - deductible] of every layer, added up. *)
Definition capacity (prog : layers) : Z :=
  sum (map (fun layer => snd layer - fst layer) prog).

(** What one layer pays on an aggregate loss [total]. *)
Definition layer_payout (total : Z) (layer : Z * Z) : Z :=
  clamp (total - fst layer) 0 (snd layer - fst layer).

(** * Properties *)

(** ** Sums *)

Lemma fold_add_shift (xs : list Z) (a : Z) :
  fold_left Z.add xs a = a + fold_left Z.add xs 0.
Proof.
  revert a; induction xs as [|x xs IH]; intro a; simpl.
  - lia.
  - rewrite (IH (a + x)), (IH x). lia.
Qed.

Lemma sum_nil : sum [] = 0.
Proof. reflexivity. Qed.

Lemma sum_cons (x : Z) (xs : list Z) : sum (x :: xs) = x + sum xs.
Proof. unfold sum; simpl. apply fold_add_shift. Qed.

Lemma sum_single (x : Z) : sum [x] = x.
Proof. rewrite sum_cons, sum_nil. lia. Qed.

Lemma sum_nonneg (xs : list Z) :
  Forall (fun x => 0 <= x) xs -> 0 <= sum xs.
Proof.
  induction 1 as [|x xs Hx _ IH].
  - rewrite sum_nil; lia.
  - rewrite sum_cons; lia.
Qed.

Lemma sum_le_pointwise (xs ys : list Z) :
  Forall2 Z.le xs ys -> sum xs <= sum ys.
Proof.
  induction 1 as [|x y xs ys Hxy _ IH].
  - lia.
  - rewrite !sum_cons; lia.
Qed.

(** ** The clamp of a layer *)

Lemma clamp_bounds (x width : Z) :
  0 < width -> 0 <= clamp x 0 width <= width.
Proof. unfold clamp; lia. Qed.

Lemma clamp_zero_total (d width : Z) :
  0 <= d -> 0 < width -> clamp (0 - d) 0 width = 0.
Proof. unfold clamp; lia. Qed.

(** ** Treaty generators: what they return *)

Lemma assert_true (cond : bool) (msg : string) :
  cond = true -> assert cond msg = Ok tt.
Proof. intros ->; reflexivity. Qed.

Lemma treaty_CatXL_ok (deductible limit : Z) :
  limit > deductible ->
  treaty_CatXL deductible limit =
  Ok (fun losses =>
        Ok (clamp (sum losses - deductible) 0 (limit - deductible))).
Proof.
  intro H. unfold treaty_CatXL.
  rewrite assert_true by (apply Z.gtb_lt; lia).
  reflexivity.
Qed.

Lemma treaty_inuring_CatXL_ok (d1 l1 d2 l2 : Z) :
  l1 > d1 -> l2 > d2 ->
  exists f, treaty_inuring_CatXL d1 l1 d2 l2 = Ok f /\
    forall losses,
      f losses =
      Ok (clamp (sum losses - d1) 0 (l1 - d1) +
          clamp (sum losses - clamp (sum losses - d1) 0 (l1 - d1) - d2)
                0 (l2 - d2)).
Proof.
  intros H1 H2. unfold treaty_inuring_CatXL.
  rewrite assert_true.
  - eexists; split; [reflexivity|].
    intro losses. rewrite (treaty_CatXL_ok d1 l1 H1). reflexivity.
  - apply andb_true_iff; split; apply Z.gtb_lt; lia.
Qed.

(** ** Loops over [enumerate] *)

Lemma enumerate_from_cons {A : Type} (k : nat) (x : A) (xs : list A) :
  enumerate_from k (x :: xs) = (k, x) :: enumerate_from (S k) xs.
Proof. reflexivity. Qed.

Lemma in_enumerate_from {A : Type} (xs : list A) :
  forall (k i : nat) (x : A),
    In (i, x) (enumerate_from k xs) ->
    (k <= i)%nat /\ nth_error xs (i - k) = Some x.
Proof.
  induction xs as [|a xs IH]; intros k i x Hin.
  - destruct Hin.
  - rewrite enumerate_from_cons in Hin. destruct Hin as [Heq|Hin].
    + inversion Heq; subst. rewrite Nat.sub_diag. split; [lia|reflexivity].
    + apply IH in Hin as [Hle Hnth]. split; [lia|].
      replace (i - k)%nat with (S (i - S k)) by lia. exact Hnth.
Qed.

Lemma foldM_unit_pointwise {A : Type} (body : unit -> A -> result unit)
    (xs : list A) :
  (forall x, In x xs -> body tt x = Ok tt) -> foldM body xs tt = Ok tt.
Proof.
  induction xs as [|x xs IH]; intro H; simpl.
  - reflexivity.
  - rewrite (H x) by (left; reflexivity). simpl.
    apply IH. intros y Hy. apply H. right; exact Hy.
Qed.

(** ** Validated programs *)

Lemma validated_below_limit (prog : layers) (i : nat) (d l : Z) :
  validated prog = true -> nth_error prog i = Some (d, l) -> d < l.
Proof.
  unfold validated. intros H Hnth.
  apply andb_true_iff in H as [H _].
  rewrite forallb_forall in H.
  apply nth_error_In, H in Hnth. simpl in Hnth.
  apply Z.ltb_lt; exact Hnth.
Qed.

Lemma no_overlap_consecutive (prog : layers) :
  no_overlap prog = true ->
  forall (i : nat) (dp lp d l : Z),
    nth_error prog i = Some (dp, lp) ->
    nth_error prog (S i) = Some (d, l) ->
    d >= lp.
Proof.
  induction prog as [|[d0 l0] rest IH]; intros H i dp lp d l Hi HSi.
  - destruct i; discriminate.
  - destruct rest as [|[d1 l1] rest'].
    + destruct i; simpl in HSi; discriminate.
    + simpl in H. apply andb_true_iff in H as [Hge Hrest].
      destruct i as [|i].
      * simpl in Hi, HSi. inversion Hi; inversion HSi; subst.
        apply Z.geb_le in Hge. lia.
      * apply (IH Hrest i dp lp d l); assumption.
Qed.

Lemma validated_no_overlap (prog : layers) :
  validated prog = true -> no_overlap prog = true.
Proof.
  unfold validated. intro H. apply andb_true_iff in H as [_ H]. exact H.
Qed.

Lemma nth_error_deductibles (prog : layers) (i : nat) (d : Z) :
  nth_error (deductibles prog) i = Some d ->
  exists l, nth_error prog i = Some (d, l) /\
            nth_error (limits prog) i = Some l.
Proof.
  unfold deductibles, limits. rewrite !nth_error_map.
  destruct (nth_error prog i) as [[d' l]|]; simpl; [|discriminate].
  intro H; inversion H; subst. exists l; split; reflexivity.
Qed.

Lemma program_check_ok (prog : layers) (i : nat) (d : Z) :
  validated prog = true ->
  nth_error (deductibles prog) i = Some d ->
  program_check (limits prog) tt (i, d) = Ok tt.
Proof.
  intros Hval Hd.
  destruct (nth_error_deductibles prog i d Hd) as (l & Hnth & Hl).
  unfold program_check, index. rewrite Hl. simpl.
  rewrite assert_true
    by (apply Z.ltb_lt; exact (validated_below_limit prog i d l Hval Hnth)).
  simpl. destruct i as [|i]; [reflexivity|].
  replace (0 <? S i)%nat with true by (symmetry; apply Nat.ltb_lt; lia).
  replace (S i - 1)%nat with i by lia.
  destruct (nth_error prog i) as [[dp lp]|] eqn:Hprev.
  - unfold limits. rewrite nth_error_map, Hprev. simpl.
    apply assert_true, Z.geb_le.
    pose proof (no_overlap_consecutive prog (validated_no_overlap prog Hval)
                  i dp lp d l Hprev Hnth).
    lia.
  - apply nth_error_None in Hprev.
    assert (S i < length prog)%nat
      by (apply nth_error_Some; rewrite Hnth; discriminate).
    lia.
Qed.

Lemma program_validation_passes (prog : layers) :
  validated prog = true ->
  foldM (program_check (limits prog)) (enumerate (deductibles prog)) tt = Ok tt.
Proof.
  intro Hval. apply foldM_unit_pointwise.
  intros [i d] Hin. apply in_enumerate_from in Hin as [_ Hnth].
  rewrite Nat.sub_0_r in Hnth.
  apply program_check_ok; assumption.
Qed.

Lemma program_payouts (losses lVec : list Z) (suffix : layers) :
  forall k : nat,
    (forall (j : nat) (d l : Z),
        nth_error suffix j = Some (d, l) ->
        nth_error lVec (k + j) = Some l /\ d < l) ->
    mapM (fun it : nat * Z =>
            let '(i, d) := it in
            li <- index lVec i ;;
            f <- treaty_CatXL d li ;;
            f losses)
         (enumerate_from k (deductibles suffix))
    = Ok (map (layer_payout (sum losses)) suffix).
Proof.
  induction suffix as [|[d l] rest IH]; intros k H.
  - reflexivity.
  - unfold deductibles; simpl map. rewrite enumerate_from_cons.
    destruct (H 0%nat d l eq_refl) as [Hl Hlt].
    rewrite Nat.add_0_r in Hl.
    simpl mapM. unfold index at 1. rewrite Hl. simpl.
    rewrite treaty_CatXL_ok by lia. simpl.
    fold (deductibles rest). rewrite (IH (S k)).
    + reflexivity.
    + intros j d' l' Hj. specialize (H (S j) d' l' Hj).
      replace (S k + j)%nat with (k + S j)%nat by lia. exact H.
Qed.

Lemma treaty_CatXL_program_ok (prog : layers) :
  validated prog = true ->
  exists f, treaty_CatXL_program (deductibles prog) (limits prog) = Ok f /\
    forall losses, f losses = Ok (sum (map (layer_payout (sum losses)) prog)).
Proof.
  intro Hval. unfold treaty_CatXL_program.
  rewrite (program_validation_passes prog Hval). simpl.
  eexists; split; [reflexivity|].
  intro losses. unfold enumerate.
  rewrite (program_payouts losses (limits prog) prog 0%nat).
  - reflexivity.
  - intros j d l Hj. simpl. split.
    + unfold limits. rewrite nth_error_map, Hj. reflexivity.
    + exact (validated_below_limit prog j d l Hval Hj).
Qed.

Lemma layer_payouts_le_capacity (total : Z) (prog : layers) :
  Forall (fun layer => fst layer < snd layer) prog ->
  sum (map (layer_payout total) prog) <= capacity prog.
Proof.
  intro H. unfold capacity. apply sum_le_pointwise.
  induction H as [|layer rest Hlt _ IH]; simpl; constructor.
  - unfold layer_payout, clamp. lia.
  - exact IH.
Qed.

Lemma validated_all_below (prog : layers) :
  validated prog = true -> Forall (fun layer => fst layer < snd layer) prog.
Proof.
  unfold validated. intro H. apply andb_true_iff in H as [H _].
  rewrite forallb_forall in H. apply Forall_forall.
  intros layer Hin. apply Z.ltb_lt, H, Hin.
Qed.

(** ** The search as a scan over suffixes *)

Lemma skipn_succ_tl {A : Type} (xs : list A) :
  forall k : nat, skipn (S k) xs = tl (skipn k xs).
Proof.
  induction xs as [|x xs IH]; intro k.
  - destruct k; reflexivity.
  - destruct k as [|k]; [reflexivity|].
    change (skipn (S (S k)) (x :: xs)) with (skipn (S k) xs).
    change (skipn (S k) (x :: xs)) with (skipn k xs).
    apply IH.
Qed.

Lemma foldM_cons {A S : Type} (body : S -> A -> result S) (x : A)
    (xs : list A) (st : S) :
  foldM body (x :: xs) st = (st' <- body st x ;; foldM body xs st').
Proof. reflexivity. Qed.

Lemma scan_cons (windowLen : Z) (treatyFunc : treaty) (t : Z)
    (ts ls : list Z) (st : scan_state) :
  scan windowLen treatyFunc (t :: ts) ls st =
  (curLosses <- bool_index ls (mask_lt (t :: ts) (t + windowLen)) ;;
   payout <- treatyFunc curLosses ;;
   scan windowLen treatyFunc ts (tl ls) (update st t payout)).
Proof. reflexivity. Qed.

Lemma loop_is_scan (windowLen : Z) (treatyFunc : treaty)
    (timeVec lossVec : list Z) :
  forall (ts : list Z) (k : nat) (st : scan_state),
    skipn k timeVec = ts ->
    foldM (loop_body windowLen treatyFunc timeVec lossVec)
          (enumerate_from k ts) st
    = scan windowLen treatyFunc ts (skipn k lossVec) st.
Proof.
  induction ts as [|t ts IH]; intros k st Hk.
  - reflexivity.
  - rewrite enumerate_from_cons, foldM_cons, scan_cons.
    unfold loop_body at 1. rewrite Hk.
    destruct (bool_index (skipn k lossVec) (mask_lt (t :: ts) (t + windowLen)))
      as [curLosses|e]; [|reflexivity].
    unfold bind at 2 4.
    destruct (treatyFunc curLosses) as [payout|e]; [|reflexivity].
    unfold bind at 1 2.
    rewrite <- skipn_succ_tl. apply IH.
    rewrite skipn_succ_tl, Hk. reflexivity.
Qed.

Lemma find_window_scan (windowLen : Z) (treatyFunc : treaty)
    (timeVec lossVec : list Z) :
  find_window windowLen treatyFunc timeVec lossVec =
  (st <- scan windowLen treatyFunc timeVec lossVec (0, []) ;;
   best0 <- index (snd st) 0 ;;
   Ok (mkWindowResult best0 (snd st) (fst st))).
Proof.
  unfold find_window, enumerate.
  rewrite (loop_is_scan windowLen treatyFunc timeVec lossVec timeVec 0 (0, []))
    by reflexivity.
  simpl skipn.
  destruct (scan windowLen treatyFunc timeVec lossVec (0, [])) as [[m b]|e];
    reflexivity.
Qed.

Lemma bool_index_mask (suffix : timeline) (bound : Z) :
  bool_index (amounts suffix) (mask_lt (times suffix) bound)
  = Ok (window_amounts suffix bound).
Proof.
  unfold window_amounts.
  induction suffix as [|[t a] rest IH]; simpl.
  - reflexivity.
  - rewrite IH. destruct (t <? bound); reflexivity.
Qed.

Lemma anchor_payouts_cons (windowLen : Z) (treatyFunc : treaty)
    (e : Z * Z) (rest : timeline) :
  anchor_payouts windowLen treatyFunc (e :: rest) =
  (payout <- treatyFunc (window_amounts (e :: rest) (fst e + windowLen)) ;;
   payouts <- anchor_payouts windowLen treatyFunc rest ;;
   Ok (payout :: payouts)).
Proof. reflexivity. Qed.

Lemma scan_payouts (windowLen : Z) (treatyFunc : treaty) (events : timeline) :
  forall st : scan_state,
    scan windowLen treatyFunc (times events) (amounts events) st =
    (payouts <- anchor_payouts windowLen treatyFunc events ;;
     Ok (run_updates st (combine (times events) payouts))).
Proof.
  induction events as [|[t a] rest IH]; intro st.
  - reflexivity.
  - rewrite anchor_payouts_cons.
    change (times ((t, a) :: rest)) with (t :: times rest) at 1.
    rewrite scan_cons.
    change (t :: times rest) with (times ((t, a) :: rest)) at 1.
    rewrite bool_index_mask.
    change (fst (t, a)) with t.
    unfold bind at 1.
    destruct (treatyFunc (window_amounts ((t, a) :: rest) (t + windowLen)))
      as [payout|e]; [|reflexivity].
    unfold bind at 1 3.
    change (tl (amounts ((t, a) :: rest))) with (amounts rest).
    rewrite IH.
    destruct (anchor_payouts windowLen treatyFunc rest) as [payouts|e];
      reflexivity.
Qed.

Lemma anchor_payouts_length (windowLen : Z) (treatyFunc : treaty)
    (events : timeline) :
  forall payouts,
    anchor_payouts windowLen treatyFunc events = Ok payouts ->
    length payouts = length events.
Proof.
  induction events as [|e rest IH]; intros payouts H.
  - inversion H; reflexivity.
  - rewrite anchor_payouts_cons in H.
    destruct (treatyFunc (window_amounts (e :: rest) (fst e + windowLen)))
      as [p|]; [|discriminate].
    unfold bind at 1 in H.
    destruct (anchor_payouts windowLen treatyFunc rest) as [ps|];
      [|discriminate].
    inversion H; subst. simpl. f_equal. apply IH. reflexivity.
Qed.

(** ** The running maximum and the recorded ties *)

Lemma running_max_ge_init (payouts : list Z) :
  forall m0, m0 <= running_max m0 payouts.
Proof.
  unfold running_max.
  induction payouts as [|p ps IH]; intro m0; simpl.
  - lia.
  - specialize (IH (Z.max m0 p)). lia.
Qed.

Lemma running_max_bounded (m : Z) (payouts : list Z) :
  Forall (fun p => p <= m) payouts ->
  forall m0, m0 <= m -> running_max m0 payouts <= m.
Proof.
  unfold running_max.
  induction 1 as [|p ps Hp _ IH]; intros m0 Hm0; simpl.
  - exact Hm0.
  - apply IH. lia.
Qed.

Lemma running_max_ge_elem (payouts : list Z) (p : Z) :
  In p payouts -> forall m0, p <= running_max m0 payouts.
Proof.
  unfold running_max.
  induction payouts as [|q ps IH]; intros Hin m0; simpl.
  - destruct Hin.
  - destruct Hin as [->|Hin].
    + pose proof (running_max_ge_init ps (Z.max m0 p)) as H.
      unfold running_max in H. lia.
    + apply IH; exact Hin.
Qed.

Lemma run_updates_cons (st : scan_state) (t p : Z) (rest : list (Z * Z)) :
  run_updates st ((t, p) :: rest) = run_updates (update st t p) rest.
Proof. reflexivity. Qed.

Lemma running_max_cons (m0 p : Z) (ps : list Z) :
  running_max m0 (p :: ps) = running_max (Z.max m0 p) ps.
Proof. reflexivity. Qed.

Lemma times_paying_cons (m t p : Z) (rest : list (Z * Z)) :
  times_paying m ((t, p) :: rest) =
  (if p =? m then [t] else []) ++ times_paying m rest.
Proof.
  unfold times_paying. simpl. destruct (p =? m); reflexivity.
Qed.

Lemma update_tie (m : Z) (b : list Z) (t : Z) :
  update (m, b) t m = (m, b ++ [t]).
Proof. unfold update. rewrite Z.eqb_refl. reflexivity. Qed.

Lemma update_higher (m : Z) (b : list Z) (t p : Z) :
  p > m -> update (m, b) t p = (p, [t]).
Proof.
  intro H. unfold update.
  replace (p =? m) with false by (symmetry; apply Z.eqb_neq; lia).
  replace (p >? m) with true by (symmetry; apply Z.gtb_lt; lia).
  reflexivity.
Qed.

Lemma update_lower (m : Z) (b : list Z) (t p : Z) :
  p < m -> update (m, b) t p = (m, b).
Proof.
  intro H. unfold update.
  replace (p =? m) with false by (symmetry; apply Z.eqb_neq; lia).
  replace (p >? m) with false
    by (symmetry; rewrite Z.gtb_ltb; apply Z.ltb_ge; lia).
  reflexivity.
Qed.

(** After the scan the state holds the largest payout seen (or the
    initial maximum) and, in scan order, the times of every item that
    pays it, after the initial best times when the maximum never rose. *)
Lemma run_updates_spec (items : list (Z * Z)) :
  forall (m0 : Z) (b0 : list Z),
    run_updates (m0, b0) items =
    (running_max m0 (map snd items),
     (if running_max m0 (map snd items) =? m0 then b0 else [])
       ++ times_paying (running_max m0 (map snd items)) items).
Proof.
  induction items as [|[t p] rest IH]; intros m0 b0.
  - unfold run_updates, running_max, times_paying. simpl.
    rewrite Z.eqb_refl, app_nil_r. reflexivity.
  - rewrite run_updates_cons. change (map snd ((t, p) :: rest))
      with (p :: map snd rest).
    rewrite running_max_cons, times_paying_cons.
    pose proof (running_max_ge_init (map snd rest) (Z.max m0 p)) as Hge.
    destruct (Z.lt_trichotomy p m0) as [Hlt|[Heq|Hgt]].
    + rewrite update_lower, IH by exact Hlt.
      replace (Z.max m0 p) with m0 in * by lia.
      replace (p =? running_max m0 (map snd rest)) with false
        by (symmetry; apply Z.eqb_neq; lia).
      reflexivity.
    + subst p. rewrite update_tie, IH.
      rewrite Z.max_id in *. rewrite (Z.eqb_sym m0).
      destruct (running_max m0 (map snd rest) =? m0).
      * rewrite <- app_assoc. reflexivity.
      * reflexivity.
    + rewrite update_higher, IH by lia.
      replace (Z.max m0 p) with p in * by lia.
      replace (running_max p (map snd rest) =? m0) with false
        by (symmetry; apply Z.eqb_neq; lia).
      rewrite (Z.eqb_sym p).
      destruct (running_max p (map snd rest) =? p); reflexivity.
Qed.

(** ** Lists of items *)

Lemma map_snd_combine {A B : Type} (xs : list A) :
  forall ys : list B,
    length ys = length xs -> map snd (combine xs ys) = ys.
Proof.
  induction xs as [|x xs IH]; intros [|y ys] H; simpl in *;
    try reflexivity; try discriminate.
  f_equal. apply IH. lia.
Qed.

Lemma nth_error_combine {A B : Type} (xs : list A) :
  forall (ys : list B) (i : nat) (x : A) (y : B),
    nth_error xs i = Some x -> nth_error ys i = Some y ->
    nth_error (combine xs ys) i = Some (x, y).
Proof.
  induction xs as [|x0 xs IH]; intros [|y0 ys] [|i] x y Hx Hy;
    simpl in *; try discriminate.
  - inversion Hx; inversion Hy; reflexivity.
  - apply IH; assumption.
Qed.

Lemma nth_error_combine_inv {A B : Type} (xs : list A) :
  forall (ys : list B) (i : nat) (x : A) (y : B),
    nth_error (combine xs ys) i = Some (x, y) ->
    nth_error xs i = Some x /\ nth_error ys i = Some y.
Proof.
  induction xs as [|x0 xs IH]; intros [|y0 ys] [|i] x y H;
    simpl in *; try discriminate.
  - inversion H; split; reflexivity.
  - apply IH; assumption.
Qed.

Lemma filter_first_match {A : Type} (P : A -> bool) (xs : list A) :
  forall (i : nat) (x : A),
    nth_error xs i = Some x -> P x = true ->
    (forall (k : nat) (y : A),
        (k < i)%nat -> nth_error xs k = Some y -> P y = false) ->
    exists rest, filter P xs = x :: rest.
Proof.
  induction xs as [|x0 xs IH]; intros [|i] x Hx HP Hfirst;
    simpl in Hx; try discriminate.
  - inversion Hx; subst. simpl. rewrite HP. eexists; reflexivity.
  - simpl. rewrite (Hfirst 0%nat x0) by (try lia; reflexivity).
    apply (IH i x Hx HP).
    intros k y Hk Hy. apply (Hfirst (S k) y); [lia|exact Hy].
Qed.

Lemma filter_none {A : Type} (P : A -> bool) (xs : list A) :
  (forall x, In x xs -> P x = false) -> filter P xs = [].
Proof.
  induction xs as [|x xs IH]; intro H; simpl.
  - reflexivity.
  - rewrite (H x) by (left; reflexivity).
    apply IH. intros y Hy. apply H. right; exact Hy.
Qed.

Lemma ascending_head_least (ts : list Z) :
  forall t, ascending (t :: ts) = true -> Forall (fun x => t <= x) ts.
Proof.
  induction ts as [|t' ts IH]; intros t H.
  - constructor.
  - simpl in H. apply andb_true_iff in H as [Hle Hrest].
    apply Z.leb_le in Hle. constructor; [exact Hle|].
    apply IH in Hrest. eapply Forall_impl; [|exact Hrest].
    simpl; intros; lia.
Qed.

Lemma ascending_tail (t : Z) (ts : list Z) :
  ascending (t :: ts) = true -> ascending ts = true.
Proof.
  destruct ts as [|t' ts]; [reflexivity|].
  simpl. intro H. apply andb_true_iff in H as [_ H]. exact H.
Qed.

Lemma ascending_nth (ts : list Z) :
  ascending ts = true ->
  forall (i j : nat) (a b : Z),
    (i <= j)%nat -> nth_error ts i = Some a -> nth_error ts j = Some b ->
    a <= b.
Proof.
  induction ts as [|t ts IH]; intros Hasc i j a b Hij Ha Hb.
  - destruct i; discriminate.
  - destruct i as [|i]; destruct j as [|j]; simpl in Ha, Hb.
    + inversion Ha; inversion Hb; subst. lia.
    + inversion Ha; subst.
      apply ascending_head_least in Hasc. rewrite Forall_forall in Hasc.
      apply Hasc. eapply nth_error_In; exact Hb.
    + lia.
    + apply (IH (ascending_tail t ts Hasc) i j); [lia|assumption..].
Qed.


(** ** What the search returns *)

(** The search in terms of the payouts of its anchors. *)
Lemma find_window_payouts (windowLen : Z) (treatyFunc : treaty)
    (events : timeline) (payouts : list Z) :
  anchor_payouts windowLen treatyFunc events = Ok payouts ->
  find_window windowLen treatyFunc (times events) (amounts events) =
  (best0 <- index (times_paying (running_max 0 payouts)
                                (combine (times events) payouts)) 0 ;;
   Ok (mkWindowResult best0
         (times_paying (running_max 0 payouts) (combine (times events) payouts))
         (running_max 0 payouts))).
Proof.
  intro H. rewrite find_window_scan, scan_payouts, H.
  unfold bind at 2. unfold bind at 1.
  rewrite run_updates_spec, map_snd_combine.
  - destruct (running_max 0 payouts =? 0); reflexivity.
  - unfold times. rewrite length_map.
    exact (anchor_payouts_length windowLen treatyFunc events payouts H).
Qed.

Lemma run_updates_all_tie (p : Z) (ts : list Z) :
  forall b0 : list Z,
    run_updates (p, b0) (combine ts (repeat p (length ts))) = (p, b0 ++ ts).
Proof.
  induction ts as [|t ts IH]; intro b0.
  - simpl. rewrite app_nil_r. reflexivity.
  - simpl length. simpl repeat. simpl combine.
    rewrite run_updates_cons, update_tie, IH, <- app_assoc. reflexivity.
Qed.

(** When every anchor pays the same non-negative amount, every time
    is recorded. *)
Lemma find_window_constant_payout (windowLen : Z) (treatyFunc : treaty)
    (e : Z * Z) (rest : timeline) (p : Z) :
  0 <= p ->
  anchor_payouts windowLen treatyFunc (e :: rest)
    = Ok (repeat p (length (e :: rest))) ->
  find_window windowLen treatyFunc (times (e :: rest)) (amounts (e :: rest))
    = Ok (mkWindowResult (fst e) (times (e :: rest)) p).
Proof.
  intros Hp H. rewrite find_window_scan, scan_payouts, H.
  unfold bind at 2.
  change (times (e :: rest)) with (fst e :: times rest).
  simpl length. simpl repeat. simpl combine.
  rewrite run_updates_cons.
  assert (Hfirst : update (0, []) (fst e) p = (p, [fst e])).
  { destruct (Z.eq_dec p 0) as [->|Hne].
    - apply update_tie.
    - apply update_higher. lia. }
  rewrite Hfirst.
  replace (length rest) with (length (times rest))
    by (unfold times; apply length_map).
  rewrite run_updates_all_tie. reflexivity.
Qed.

Lemma anchor_payouts_pointwise (windowLen : Z) (treatyFunc : treaty) (p : Z)
    (events : timeline) :
  (forall i : nat, (i < length events)%nat ->
      treatyFunc (anchor_window windowLen (skipn i events)) = Ok p) ->
  anchor_payouts windowLen treatyFunc events = Ok (repeat p (length events)).
Proof.
  induction events as [|e rest IH]; intro H.
  - reflexivity.
  - rewrite anchor_payouts_cons.
    pose proof (H 0%nat ltac:(simpl; lia)) as H0. simpl in H0.
    rewrite H0. unfold bind at 1. rewrite IH.
    + reflexivity.
    + intros i Hi. apply (H (S i)). simpl; lia.
Qed.

(** A window of length at most 0 over ascending times holds no event. *)
Lemma empty_window (windowLen : Z) (events : timeline) :
  windowLen <= 0 -> ascending (times events) = true ->
  anchor_window windowLen events = [].
Proof.
  intros Hw Hasc. destruct events as [|[t a] rest]; [reflexivity|].
  unfold anchor_window, window_amounts. simpl fst.
  apply ascending_head_least in Hasc.
  rewrite filter_none; [reflexivity|].
  intros [t' a'] Hin. simpl. apply Z.ltb_ge.
  destruct Hin as [Heq|Hin].
  - inversion Heq; subst. lia.
  - rewrite Forall_forall in Hasc.
    assert (t <= t') by (apply Hasc; unfold times; apply (in_map fst _ _ Hin)).
    lia.
Qed.

Lemma ascending_skipn (ts : list Z) :
  forall i : nat, ascending ts = true -> ascending (skipn i ts) = true.
Proof.
  induction ts as [|t ts IH]; intros [|i] H; try exact H; try reflexivity.
  simpl skipn. apply IH. exact (ascending_tail t ts H).
Qed.

(** ** Every generated treaty pays a non-negative amount *)

Lemma layer_payouts_nonneg (total : Z) (prog : layers) :
  Forall (fun layer => fst layer < snd layer) prog ->
  Forall (fun p => 0 <= p) (map (layer_payout total) prog).
Proof.
  induction 1 as [|layer rest Hlt _ IH]; simpl; constructor.
  - unfold layer_payout, clamp. lia.
  - exact IH.
Qed.

Lemma layer_payouts_empty (prog : layers) :
  Forall (fun layer => 0 <= fst layer < snd layer) prog ->
  sum (map (layer_payout 0) prog) = 0.
Proof.
  induction 1 as [|layer rest Hlt _ IH]; simpl.
  - reflexivity.
  - rewrite sum_cons, IH. unfold layer_payout, clamp. lia.
Qed.

(** ** What a successful generator call tells *)

Lemma treaty_CatXL_inv (deductible limit : Z) (f : treaty) :
  treaty_CatXL deductible limit = Ok f ->
  limit > deductible /\
  f = (fun losses =>
         Ok (clamp (sum losses - deductible) 0 (limit - deductible))).
Proof.
  unfold treaty_CatXL, assert.
  destruct (limit >? deductible) eqn:E; simpl; intro H; [|discriminate].
  apply Z.gtb_lt in E. inversion H. split; [lia|reflexivity].
Qed.

Lemma treaty_inuring_CatXL_inv (d1 l1 d2 l2 : Z) (f : treaty) :
  treaty_inuring_CatXL d1 l1 d2 l2 = Ok f -> l1 > d1 /\ l2 > d2.
Proof.
  unfold treaty_inuring_CatXL, assert.
  destruct ((l1 >? d1) && (l2 >? d2)) eqn:E; simpl; intro H; [|discriminate].
  apply andb_true_iff in E as [E1 E2].
  apply Z.gtb_lt in E1. apply Z.gtb_lt in E2. lia.
Qed.

Lemma foldM_unit_inv {A : Type} (body : unit -> A -> result unit)
    (xs : list A) :
  foldM body xs tt = Ok tt -> forall x, In x xs -> body tt x = Ok tt.
Proof.
  induction xs as [|a xs IH]; intros H x Hin.
  - destruct Hin.
  - rewrite foldM_cons in H.
    destruct (body tt a) as [[]|e] eqn:E; [|discriminate].
    destruct Hin as [<-|Hin]; [exact E|].
    apply IH; assumption.
Qed.

Lemma nth_error_in_enumerate_from {A : Type} (xs : list A) :
  forall (k i : nat) (x : A),
    nth_error xs i = Some x -> In ((k + i)%nat, x) (enumerate_from k xs).
Proof.
  induction xs as [|a xs IH]; intros k [|i] x H; simpl in H; try discriminate.
  - inversion H; subst. rewrite Nat.add_0_r, enumerate_from_cons.
    left; reflexivity.
  - rewrite enumerate_from_cons. right.
    replace (k + S i)%nat with (S k + i)%nat by lia.
    apply IH; exact H.
Qed.

Lemma program_check_inv (lVec : list Z) (i : nat) (d : Z) :
  program_check lVec tt (i, d) = Ok tt ->
  exists l, nth_error lVec i = Some l /\ d < l.
Proof.
  unfold program_check, index.
  destruct (nth_error lVec i) as [l|]; [|discriminate].
  unfold bind at 1. unfold assert at 1.
  destruct (d <? l) eqn:E; [|discriminate].
  intros _. exists l. split; [reflexivity|]. apply Z.ltb_lt; exact E.
Qed.

Lemma map_fst_combine {A B : Type} (xs : list A) :
  forall ys : list B,
    (length xs <= length ys)%nat -> map fst (combine xs ys) = xs.
Proof.
  induction xs as [|x xs IH]; intros [|y ys] H; simpl in *;
    try reflexivity; try lia.
  f_equal. apply IH. lia.
Qed.

Lemma treaty_CatXL_program_inv (dVec lVec : list Z) (f : treaty) :
  treaty_CatXL_program dVec lVec = Ok f ->
  Forall (fun layer => fst layer < snd layer) (combine dVec lVec) /\
  forall losses,
    f losses = Ok (sum (map (layer_payout (sum losses)) (combine dVec lVec))).
Proof.
  unfold treaty_CatXL_program.
  destruct (foldM (program_check lVec) (enumerate dVec) tt) as [[]|e]
    eqn:Hcheck; [|discriminate].
  unfold bind at 1. intro H. inversion H as [Hf]. clear H Hf.
  assert (Hlayer : forall i d, nth_error dVec i = Some d ->
                               exists l, nth_error lVec i = Some l /\ d < l).
  { intros i d Hd. apply program_check_inv.
    apply (foldM_unit_inv _ _ Hcheck).
    apply (nth_error_in_enumerate_from dVec 0 i d Hd). }
  assert (Hlen : (length dVec <= length lVec)%nat).
  { destruct (Nat.le_gt_cases (length dVec) (length lVec)) as [Hle|Hgt];
      [exact Hle|].
    destruct (nth_error dVec (length lVec)) as [d|] eqn:Hd.
    - destruct (Hlayer _ _ Hd) as (l & Hl & _).
      assert (nth_error lVec (length lVec) = None)
        by (apply nth_error_None; lia).
      congruence.
    - apply nth_error_None in Hd. lia. }
  assert (Hpairs : forall j d l,
             nth_error (combine dVec lVec) j = Some (d, l) ->
             nth_error lVec (0 + j) = Some l /\ d < l).
  { intros j d l Hj. apply nth_error_combine_inv in Hj as [Hd Hl].
    destruct (Hlayer j d Hd) as (l' & Hl' & Hlt).
    simpl. split; [exact Hl|]. congruence. }
  split.
  - apply Forall_forall. intros [d l] Hin.
    apply In_nth_error in Hin as [j Hj]. simpl.
    exact (proj2 (Hpairs j d l Hj)).
  - intro losses.
    pose proof (program_payouts losses lVec (combine dVec lVec) 0%nat Hpairs)
      as Hp.
    unfold deductibles in Hp. rewrite (map_fst_combine dVec lVec Hlen) in Hp.
    unfold enumerate. rewrite Hp. reflexivity.
Qed.

Lemma generated_pays_nonneg (f : treaty) : generated f -> pays_nonneg f.
Proof.
  intros [d l g H|d1 l1 d2 l2 g H|dVec lVec g H] losses.
  - apply treaty_CatXL_inv in H as [Hl ->].
    eexists; split; [reflexivity|]. unfold clamp; lia.
  - destruct (treaty_inuring_CatXL_inv _ _ _ _ _ H) as [H1 H2].
    destruct (treaty_inuring_CatXL_ok d1 l1 d2 l2 H1 H2) as (g' & Hg' & Hpay).
    assert (g = g') by congruence. subst g'.
    rewrite Hpay. eexists; split; [reflexivity|]. unfold clamp; lia.
  - apply treaty_CatXL_program_inv in H as [Hall Hpay].
    rewrite Hpay. eexists; split; [reflexivity|].
    apply sum_nonneg, layer_payouts_nonneg, Hall.
Qed.

Lemma anchor_payouts_nonneg (windowLen : Z) (treatyFunc : treaty)
    (events : timeline) :
  pays_nonneg treatyFunc ->
  forall payouts,
    anchor_payouts windowLen treatyFunc events = Ok payouts ->
    Forall (fun p => 0 <= p) payouts.
Proof.
  intro Hnn. induction events as [|e rest IH]; intros payouts H.
  - inversion H. constructor.
  - rewrite anchor_payouts_cons in H.
    destruct (Hnn (window_amounts (e :: rest) (fst e + windowLen)))
      as (p & Hp & Hp0).
    rewrite Hp in H. unfold bind at 1 in H.
    destruct (anchor_payouts windowLen treatyFunc rest) as [ps|];
      [|discriminate].
    inversion H; subst. constructor; [exact Hp0|]. apply IH. reflexivity.
Qed.

(** The running maximum starts at 0: a treaty function that is not a
    generated one and pays below 0 on every window leaves no best time
    to return. *)
Remark negative_payouts_leave_no_best_time :
  find_window 1 (fun _ => Ok (-1)) [0] [5] = Raise IndexError.
Proof. reflexivity. Qed.

(** * The specification's claims *)

(** C1.  On the timeline [(0,5), (1,10), (2,20)] with a window of
    length 2 and the single layer of deductible 10 and limit 30, the
    anchors 0, 1 and 2 pay 5, 20 and 10, and the search returns the
    maximal payout 20, the best times [1] and the canonical best time 1. *)
Theorem concrete_scenario :
  exists f, treaty_CatXL 10 30 = Ok f /\
    anchor_payouts 2 f [(0, 5); (1, 10); (2, 20)] = Ok [5; 20; 10] /\
    find_window 2 f [0; 1; 2] [5; 10; 20] = Ok (mkWindowResult 1 [1] 20).
Proof.
  eexists. split; [reflexivity|]. split; reflexivity.
Qed.

(** C2, as stated, fails: a window length of 0 is not rejected.  On the
    timeline of C1 the search with [windowLen = 0] returns a result in
    which every anchor ties at payout 0. *)
Lemma nonpositive_window_returns :
  exists f, treaty_CatXL 10 30 = Ok f /\
    find_window 0 f [0; 1; 2] [5; 10; 20]
    = Ok (mkWindowResult 0 [0; 1; 2] 0).
Proof.
  eexists. split; reflexivity.
Qed.

(** C2, amended.  On an empty timeline the search raises (the
    [IndexError] of [bestTimes[0]], whatever the treaty function and
    the window length, the treaty function not being called) and so
    returns no result.  A window length at or below 0 is not rejected:
    over a non-empty ascending timeline every window is then empty,
    and when the treaty pays [p >= 0] on no losses the search returns
    the maximal payout [p], every event time as a best time and the
    first event's time as the canonical one. *)
Theorem empty_timeline_raises :
  (forall windowLen treatyFunc lossVec,
      find_window windowLen treatyFunc [] lossVec = Raise IndexError) /\
  (forall windowLen treatyFunc e rest p,
      windowLen <= 0 ->
      ascending (times (e :: rest)) = true ->
      treatyFunc [] = Ok p -> 0 <= p ->
      find_window windowLen treatyFunc
                  (times (e :: rest)) (amounts (e :: rest))
      = Ok (mkWindowResult (fst e) (times (e :: rest)) p)).
Proof.
  split.
  - reflexivity.
  - intros windowLen treatyFunc e rest p Hw Hasc Hp Hp0.
    apply find_window_constant_payout; [exact Hp0|].
    apply anchor_payouts_pointwise. intros i Hi.
    rewrite empty_window; [exact Hp|exact Hw|].
    unfold times. rewrite <- skipn_map.
    apply ascending_skipn. exact Hasc.
Qed.

Lemma empty_timeline_raises_witness :
  exists f, treaty_CatXL 10 30 = Ok f /\
    find_window (-3) f (times [(0, 5); (1, 10); (2, 20)])
                (amounts [(0, 5); (1, 10); (2, 20)])
    = Ok (mkWindowResult 0 [0; 1; 2] 0).
Proof.
  eexists. split; [reflexivity|].
  apply (proj2 empty_timeline_raises (-3) _ (0, 5) [(1, 10); (2, 20)] 0).
  - lia.
  - reflexivity.
  - reflexivity.
  - lia.
Defined.

(** C3.  For a layer with [limit > deductible] and any losses (of any
    sign), the function built by [treaty_CatXL] pays
    [min(max(sum(losses) - deductible, 0), limit - deductible)], which
    lies between 0 and [limit - deductible] inclusive. *)
Theorem single_layer_clamp (deductible limit : Z) :
  limit > deductible ->
  exists f, treaty_CatXL deductible limit = Ok f /\
    forall losses,
      f losses = Ok (clamp (sum losses - deductible) 0 (limit - deductible)) /\
      clamp (sum losses - deductible) 0 (limit - deductible)
      = Z.min (Z.max (sum losses - deductible) 0) (limit - deductible) /\
      0 <= clamp (sum losses - deductible) 0 (limit - deductible)
        <= limit - deductible.
Proof.
  intro H. rewrite (treaty_CatXL_ok _ _ H). eexists; split; [reflexivity|].
  intro losses. split; [reflexivity|]. split; [reflexivity|].
  apply clamp_bounds. lia.
Qed.

Lemma single_layer_clamp_witness :
  exists f, treaty_CatXL 10 30 = Ok f /\
    forall losses,
      f losses = Ok (clamp (sum losses - 10) 0 (30 - 10)) /\
      clamp (sum losses - 10) 0 (30 - 10)
      = Z.min (Z.max (sum losses - 10) 0) (30 - 10) /\
      0 <= clamp (sum losses - 10) 0 (30 - 10) <= 30 - 10.
Proof.
  apply (single_layer_clamp 10 30). lia.
Defined.

(** C4.  For a two-layer inuring chain with [l1 > d1] and [l2 > d2]
    the function built by [treaty_inuring_CatXL] pays
    [payout1 + payout2], where [payout1] is the first layer's clamp of
    the total and [payout2] the second layer's clamp of what the first
    layer left, [total - payout1]; and the order of the two layers
    matters: on the loss 8 the chain (5,10),(0,5) pays 8 while the
    chain (0,5),(5,10) pays 5. *)
Theorem inuring_two_layers :
  (forall d1 l1 d2 l2,
      l1 > d1 -> l2 > d2 ->
      exists f, treaty_inuring_CatXL d1 l1 d2 l2 = Ok f /\
        forall losses,
          let total := sum losses in
          let payout1 := clamp (total - d1) 0 (l1 - d1) in
          let payout2 := clamp ((total - payout1) - d2) 0 (l2 - d2) in
          f losses = Ok (payout1 + payout2)) /\
  (exists f g,
      treaty_inuring_CatXL 5 10 0 5 = Ok f /\
      treaty_inuring_CatXL 0 5 5 10 = Ok g /\
      f [8] = Ok 8 /\ g [8] = Ok 5).
Proof.
  split.
  - intros d1 l1 d2 l2 H1 H2.
    destruct (treaty_inuring_CatXL_ok d1 l1 d2 l2 H1 H2) as (f & Hf & Hpay).
    exists f; split; [exact Hf|]. intro losses. simpl. apply Hpay.
  - eexists; eexists. repeat split; reflexivity.
Qed.

Lemma inuring_two_layers_witness :
  exists f, treaty_inuring_CatXL 10 30 20 50 = Ok f /\
    f [25; 40] = Ok 45.
Proof.
  destruct (proj1 inuring_two_layers 10 30 20 50) as (f & Hf & Hpay);
    [lia|lia|].
  exists f; split; [exact Hf|].
  rewrite (Hpay [25; 40]). reflexivity.
Defined.

(** C5.  For a validated program and any losses, the function built by
    [treaty_CatXL_program] pays the sum of what each layer, taken as a
    single-layer treaty, pays on the same losses (equivalently on their
    total as one amount), and this sum is at most the sum of the
    layers' widths [limit - deductible]. *)
Theorem program_sums_independent_layers (prog : layers) (losses : list Z) :
  validated prog = true ->
  exists f payouts,
    treaty_CatXL_program (deductibles prog) (limits prog) = Ok f /\
    f losses = Ok (sum payouts) /\
    Forall2 (fun layer p =>
               exists g, treaty_CatXL (fst layer) (snd layer) = Ok g /\
                         g losses = Ok p /\ g [sum losses] = Ok p)
            prog payouts /\
    sum payouts <= capacity prog.
Proof.
  intro Hval.
  destruct (treaty_CatXL_program_ok prog Hval) as (f & Hf & Hpay).
  exists f, (map (layer_payout (sum losses)) prog).
  pose proof (validated_all_below prog Hval) as Hall.
  repeat split.
  - exact Hf.
  - apply Hpay.
  - clear Hf Hpay Hval.
    induction Hall as [|layer rest Hlt _ IH]; simpl; constructor.
    + rewrite treaty_CatXL_ok by lia. eexists; split; [reflexivity|].
      split; [reflexivity|]. cbv beta. rewrite sum_single. reflexivity.
    + exact IH.
  - apply layer_payouts_le_capacity, Hall.
Qed.

Lemma program_sums_independent_layers_witness :
  exists f payouts,
    treaty_CatXL_program [0; 10; 40] [10; 30; 100] = Ok f /\
    f [5; 10; 20] = Ok (sum payouts) /\
    Forall2 (fun layer p =>
               exists g, treaty_CatXL (fst layer) (snd layer) = Ok g /\
                         g [5; 10; 20] = Ok p /\ g [sum [5; 10; 20]] = Ok p)
            [(0, 10); (10, 30); (40, 100)] payouts /\
    sum payouts <= 90.
Proof.
  apply (program_sums_independent_layers
           [(0, 10); (10, 30); (40, 100)] [5; 10; 20]).
  reflexivity.
Defined.

(** C6.  In the scan, a payout above the running maximum replaces the
    maximum and leaves the anchor's time as the only best time; a
    payout equal to the running maximum appends the anchor's time; the
    returned canonical best time is the first of the returned best
    times.  Consequently, when the anchors [i] and [j] both pay the
    largest payout [m] and no anchor before [i] does, both times are
    among the best times and the canonical best time is that of [i],
    which on an ascending timeline is the earlier of the two; here
    [m >= 0], which holds of itself for a generated treaty. *)
Theorem tie_handling :
  (forall maxPayout bestTimes t payout,
      payout > maxPayout ->
      update (maxPayout, bestTimes) t payout = (payout, [t])) /\
  (forall maxPayout bestTimes t payout,
      payout = maxPayout ->
      update (maxPayout, bestTimes) t payout = (maxPayout, bestTimes ++ [t])) /\
  (forall windowLen treatyFunc timeVec lossVec r,
      find_window windowLen treatyFunc timeVec lossVec = Ok r ->
      nth_error (allBestTimes r) 0 = Some (canonicalBestTime r)) /\
  (forall windowLen treatyFunc events payouts i j ti ai tj aj m,
      anchor_payouts windowLen treatyFunc events = Ok payouts ->
      i <> j ->
      nth_error events i = Some (ti, ai) ->
      nth_error events j = Some (tj, aj) ->
      nth_error payouts i = Some m ->
      nth_error payouts j = Some m ->
      Forall (fun p => p <= m) payouts ->
      (forall k p, (k < i)%nat -> nth_error payouts k = Some p -> p < m) ->
      0 <= m \/ generated treatyFunc ->
      exists r,
        find_window windowLen treatyFunc (times events) (amounts events)
        = Ok r /\
        maxPayout r = m /\
        In ti (allBestTimes r) /\ In tj (allBestTimes r) /\
        canonicalBestTime r = ti /\
        (ascending (times events) = true -> ti <= tj)).
Proof.
  split; [|split; [|split]].
  - intros m b t p H. apply update_higher; exact H.
  - intros m b t p ->. apply update_tie.
  - intros windowLen treatyFunc timeVec lossVec r H.
    unfold find_window in H.
    destruct (foldM (loop_body windowLen treatyFunc timeVec lossVec)
                    (enumerate timeVec) (0, [])) as [[m b]|e]; [|discriminate].
    unfold bind at 1 in H. unfold index in H.
    destruct (nth_error b 0) as [t|] eqn:Hb; [|discriminate].
    inversion H; subst. exact Hb.
  - intros windowLen treatyFunc events payouts i j ti ai tj aj m
           Hpay Hij Hei Hej Hpi Hpj Hmax Hfirst Hdom.
    assert (Hm : 0 <= m).
    { destruct Hdom as [Hm|Hgen]; [exact Hm|].
      pose proof (anchor_payouts_nonneg _ _ _ (generated_pays_nonneg _ Hgen)
                    _ Hpay) as Hnn.
      rewrite Forall_forall in Hnn. apply Hnn.
      eapply nth_error_In; exact Hpi. }
    rewrite (find_window_payouts _ _ _ _ Hpay).
    assert (HM : running_max 0 payouts = m).
    { apply Z.le_antisymm.
      - apply running_max_bounded; assumption.
      - apply running_max_ge_elem. eapply nth_error_In; exact Hpi. }
    rewrite HM.
    assert (Hti : nth_error (times events) i = Some ti)
      by (unfold times; rewrite nth_error_map, Hei; reflexivity).
    assert (Htj : nth_error (times events) j = Some tj)
      by (unfold times; rewrite nth_error_map, Hej; reflexivity).
    pose proof (nth_error_combine _ _ _ _ _ Hti Hpi) as Hci.
    pose proof (nth_error_combine _ _ _ _ _ Htj Hpj) as Hcj.
    destruct (filter_first_match (fun it : Z * Z => snd it =? m)
                (combine (times events) payouts) i (ti, m) Hci
                (Z.eqb_refl m)) as [others Hfilter].
    { intros k [t p] Hk Hnth. simpl.
      apply nth_error_combine_inv in Hnth as [_ Hp].
      apply Z.eqb_neq. specialize (Hfirst k p Hk Hp). lia. }
    assert (Hin : forall t k, nth_error (combine (times events) payouts) k
                              = Some (t, m) ->
                  In t (times_paying m (combine (times events) payouts))).
    { intros t k Hk. unfold times_paying.
      apply (in_map fst _ (t, m)). apply filter_In. split.
      - eapply nth_error_In; exact Hk.
      - apply Z.eqb_refl. }
    eexists. split.
    + unfold times_paying at 1. rewrite Hfilter. reflexivity.
    + simpl. split; [reflexivity|].
      split; [exact (Hin ti i Hci)|].
      split; [exact (Hin tj j Hcj)|].
      split; [reflexivity|].
      intro Hasc. apply (ascending_nth (times events) Hasc i j); try assumption.
      destruct (Nat.lt_ge_cases j i) as [Hlt|Hge]; [|lia].
      specialize (Hfirst j m Hlt Hpj). lia.
Qed.

Lemma tie_handling_witness :
  exists f, treaty_CatXL 10 30 = Ok f /\
    exists r,
      find_window 1 f (times [(0, 5); (1, 25); (2, 7); (3, 25)])
                  (amounts [(0, 5); (1, 25); (2, 7); (3, 25)]) = Ok r /\
      maxPayout r = 15 /\
      In 1 (allBestTimes r) /\ In 3 (allBestTimes r) /\
      canonicalBestTime r = 1 /\
      (ascending (times [(0, 5); (1, 25); (2, 7); (3, 25)]) = true -> 1 <= 3).
Proof.
  eexists. split; [reflexivity|].
  apply (proj2 (proj2 (proj2 tie_handling)) 1 _
           [(0, 5); (1, 25); (2, 7); (3, 25)] [0; 15; 0; 15]
           1%nat 3%nat 1 25 3 25 15).
  - reflexivity.
  - lia.
  - reflexivity.
  - reflexivity.
  - reflexivity.
  - reflexivity.
  - repeat constructor; lia.
  - intros [|k] p Hk H; [inversion H; lia|lia].
  - left; lia.
Defined.



(** C8, as stated, fails: a layer with a negative deductible passes the
    generator's assertion and pays on no losses at all.  The layer of
    deductible -5 and limit 10 pays 5 on the empty sequence. *)
Lemma negative_deductible_pays_on_no_losses :
  exists f, treaty_CatXL (-5) 10 = Ok f /\ f [] = Ok 5 /\ f [] <> Ok 0.
Proof.
  eexists. split; [reflexivity|]. split; [reflexivity|]. discriminate.
Qed.

(** C8, amended.  Every treaty whose deductibles are all at or above 0
    (a single layer, a two-layer inuring chain, a validated program)
    pays 0 on the empty sequence of losses, so that a window holding
    no event contributes the payout 0. *)
Theorem empty_losses_pay_zero :
  (forall d l,
      0 <= d -> l > d ->
      exists f, treaty_CatXL d l = Ok f /\ f [] = Ok 0) /\
  (forall d1 l1 d2 l2,
      0 <= d1 -> 0 <= d2 -> l1 > d1 -> l2 > d2 ->
      exists f, treaty_inuring_CatXL d1 l1 d2 l2 = Ok f /\ f [] = Ok 0) /\
  (forall prog,
      validated prog = true ->
      Forall (fun layer => 0 <= fst layer) prog ->
      exists f,
        treaty_CatXL_program (deductibles prog) (limits prog) = Ok f /\
        f [] = Ok 0).
Proof.
  split; [|split].
  - intros d l Hd Hl. rewrite (treaty_CatXL_ok d l Hl).
    eexists; split; [reflexivity|]. cbv beta. rewrite sum_nil.
    rewrite clamp_zero_total by lia. reflexivity.
  - intros d1 l1 d2 l2 Hd1 Hd2 Hl1 Hl2.
    destruct (treaty_inuring_CatXL_ok d1 l1 d2 l2 Hl1 Hl2) as (f & Hf & Hpay).
    exists f; split; [exact Hf|]. rewrite Hpay, sum_nil.
    rewrite (clamp_zero_total d1) by lia.
    rewrite clamp_zero_total by lia. reflexivity.
  - intros prog Hval Hnonneg.
    destruct (treaty_CatXL_program_ok prog Hval) as (f & Hf & Hpay).
    exists f; split; [exact Hf|]. rewrite Hpay, sum_nil.
    rewrite layer_payouts_empty; [reflexivity|].
    pose proof (validated_all_below prog Hval) as Hall.
    rewrite Forall_forall in *. intros layer Hin.
    specialize (Hall layer Hin). specialize (Hnonneg layer Hin). lia.
Qed.

Lemma empty_losses_pay_zero_witness :
  (exists f, treaty_CatXL 10 30 = Ok f /\ f [] = Ok 0) /\
  (exists f, treaty_inuring_CatXL 10 30 20 50 = Ok f /\ f [] = Ok 0) /\
  (exists f, treaty_CatXL_program [0; 10; 40] [10; 30; 100] = Ok f /\
             f [] = Ok 0).
Proof.
  split; [|split].
  - apply (proj1 empty_losses_pay_zero 10 30); lia.
  - apply (proj1 (proj2 empty_losses_pay_zero) 10 30 20 50); lia.
  - apply (proj2 (proj2 empty_losses_pay_zero) [(0, 10); (10, 30); (40, 100)]).
    + reflexivity.
    + repeat constructor; simpl; lia.
Defined.

(** C9.  On a non-empty timeline on which the treaty function pays 0
    on the window of every anchor, the search returns the maximal
    payout 0, the times of all events in scan order as the best times,
    and the first event's time as the canonical best time. *)
Theorem all_zero_payouts_record_every_time (windowLen : Z)
    (treatyFunc : treaty) (e : Z * Z) (rest : timeline) :
  (forall i : nat, (i < length (e :: rest))%nat ->
      treatyFunc (anchor_window windowLen (skipn i (e :: rest))) = Ok 0) ->
  find_window windowLen treatyFunc (times (e :: rest)) (amounts (e :: rest))
  = Ok (mkWindowResult (fst e) (times (e :: rest)) 0).
Proof.
  intro H.
  apply find_window_constant_payout; [lia|].
  apply anchor_payouts_pointwise. exact H.
Qed.

Lemma all_zero_payouts_record_every_time_witness :
  exists f, treaty_CatXL 100 200 = Ok f /\
    find_window 2 f [0; 1; 2] [5; 10; 20]
    = Ok (mkWindowResult 0 [0; 1; 2] 0).
Proof.
  eexists. split; [reflexivity|].
  apply (all_zero_payouts_record_every_time 2 _ (0, 5) [(1, 10); (2, 20)]).
  intros [|[|[|i]]] Hi; [reflexivity|reflexivity|reflexivity|].
  simpl in Hi. lia.
Defined.



(** * Further properties of the generators *)

(** ** Helper lemmas *)



(** ** The properties *)







(** * Further properties of the search *)

(** ** Helper lemmas *)

Lemma running_max_attained (payouts : list Z) :
  forall m0,
    running_max m0 payouts = m0 \/ In (running_max m0 payouts) payouts.
Proof.
  induction payouts as [|p ps IH]; intro m0.
  - left; reflexivity.
  - rewrite running_max_cons.
    destruct (IH (Z.max m0 p)) as [Heq|Hin].
    + rewrite Heq. destruct (Z.max_spec m0 p) as [[_ ->]|[_ ->]].
      * right; left; reflexivity.
      * left; reflexivity.
    + right; right; exact Hin.
Qed.

Lemma running_max_in (payouts : list Z) :
  Exists (fun p => 0 <= p) payouts ->
  In (running_max 0 payouts) payouts.
Proof.
  intro Hex. destruct (running_max_attained payouts 0) as [Heq|Hin];
    [|exact Hin].
  apply Exists_exists in Hex as (p & Hin & Hp).
  pose proof (running_max_ge_elem payouts p Hin 0) as Hle.
  assert (p = running_max 0 payouts) by lia. subst p. exact Hin.
Qed.


Lemma first_occurrence (x : Z) (xs : list Z) :
  In x xs ->
  exists i, nth_error xs i = Some x /\
            forall k y, (k < i)%nat -> nth_error xs k = Some y -> y <> x.
Proof.
  induction xs as [|a xs IH]; intro Hin; [destruct Hin|].
  destruct (Z.eq_dec a x) as [->|Hne].
  - exists 0%nat. split; [reflexivity|]. intros k y Hk. lia.
  - destruct Hin as [Heq|Hin]; [congruence|].
    destruct (IH Hin) as (i & Hi & Hfirst).
    exists (S i). split; [exact Hi|].
    intros [|k] y Hk Hy; simpl in Hy.
    + inversion Hy; subst. exact Hne.
    + apply (Hfirst k y); [lia|exact Hy].
Qed.

Lemma anchor_payouts_nth (windowLen : Z) (treatyFunc : treaty)
    (events : timeline) :
  forall payouts i p,
    anchor_payouts windowLen treatyFunc events = Ok payouts ->
    nth_error payouts i = Some p ->
    treatyFunc (anchor_window windowLen (skipn i events)) = Ok p.
Proof.
  induction events as [|e rest IH]; intros payouts i p H Hi.
  - inversion H; subst. destruct i; discriminate.
  - rewrite anchor_payouts_cons in H.
    destruct (treatyFunc (window_amounts (e :: rest) (fst e + windowLen)))
      as [p0|] eqn:Hp0; [|discriminate].
    unfold bind at 1 in H.
    destruct (anchor_payouts windowLen treatyFunc rest) as [ps|] eqn:Hps;
      [|discriminate].
    inversion H; subst. destruct i as [|i]; simpl in Hi.
    + inversion Hi; subst. exact Hp0.
    + simpl skipn. exact (IH ps i p eq_refl Hi).
Qed.

(** The search succeeds as soon as one anchor pays at least 0, and
    then returns the first anchor that pays the largest payout. *)
Lemma find_window_first_best (windowLen : Z) (treatyFunc : treaty)
    (events : timeline) (payouts : list Z) :
  anchor_payouts windowLen treatyFunc events = Ok payouts ->
  Exists (fun p => 0 <= p) payouts ->
  exists i t others,
    nth_error (times events) i = Some t /\
    nth_error payouts i = Some (running_max 0 payouts) /\
    (forall k y, (k < i)%nat -> nth_error payouts k = Some y ->
                 y <> running_max 0 payouts) /\
    times_paying (running_max 0 payouts) (combine (times events) payouts)
    = t :: others /\
    find_window windowLen treatyFunc (times events) (amounts events)
    = Ok (mkWindowResult t (t :: others) (running_max 0 payouts)).
Proof.
  intros Hpay Hex.
  destruct (first_occurrence _ _ (running_max_in payouts Hex))
    as (i & Hi & Hfirst).
  pose proof (anchor_payouts_length _ _ _ _ Hpay) as Hlen.
  destruct (nth_error (times events) i) as [t|] eqn:Ht.
  - pose proof (nth_error_combine _ _ _ _ _ Ht Hi) as Hc.
    destruct (filter_first_match
                (fun it : Z * Z => snd it =? running_max 0 payouts)
                (combine (times events) payouts) i _ Hc (Z.eqb_refl _))
      as [others Hfilter].
    { intros k [t' y] Hk Hnth. simpl.
      apply nth_error_combine_inv in Hnth as [_ Hy].
      apply Z.eqb_neq. exact (Hfirst k y Hk Hy). }
    exists i, t, (map fst others).
    split; [exact Ht|]. split; [exact Hi|]. split; [exact Hfirst|].
    assert (Htp : times_paying (running_max 0 payouts)
                    (combine (times events) payouts) = t :: map fst others).
    { unfold times_paying. rewrite Hfilter. reflexivity. }
    split; [exact Htp|].
    rewrite (find_window_payouts _ _ _ _ Hpay), Htp. reflexivity.
  - apply nth_error_None in Ht. unfold times in Ht. rewrite length_map in Ht.
    assert (i < length payouts)%nat
      by (apply nth_error_Some; rewrite Hi; discriminate).
    lia.
Qed.





(** ** The properties *)

(** X3.  When every anchor's window is evaluated without error and at
    least one anchor pays 0 or more, the search returns: the maximal
    payout is at least every anchor's payout, it is what the treaty
    pays on the window anchored at the canonical best time's event,
    every earlier anchor pays strictly less, and the best times are
    the times of exactly the anchors that pay the maximal payout, in
    scan order. *)
Theorem search_returns_first_best_anchor (windowLen : Z) (treatyFunc : treaty)
    (events : timeline) (payouts : list Z) :
  anchor_payouts windowLen treatyFunc events = Ok payouts ->
  Exists (fun p => 0 <= p) payouts ->
  exists r i,
    find_window windowLen treatyFunc (times events) (amounts events) = Ok r /\
    Forall (fun p => p <= maxPayout r) payouts /\
    nth_error (times events) i = Some (canonicalBestTime r) /\
    treatyFunc (anchor_window windowLen (skipn i events))
    = Ok (maxPayout r) /\
    (forall k p, (k < i)%nat -> nth_error payouts k = Some p ->
                 p < maxPayout r) /\
    allBestTimes r
    = map fst (filter (fun it => snd it =? maxPayout r)
                      (combine (times events) payouts)).
Proof.
  intros Hpay Hex.
  destruct (find_window_first_best _ _ _ _ Hpay Hex)
    as (i & t & others & Ht & Hi & Hfirst & Htp & Hres).
  assert (Hmax : Forall (fun p => p <= running_max 0 payouts) payouts).
  { apply Forall_forall. intros p Hin.
    apply running_max_ge_elem; exact Hin. }
  eexists. exists i. split; [exact Hres|]. simpl.
  split; [exact Hmax|]. split; [exact Ht|].
  split; [exact (anchor_payouts_nth _ _ _ _ _ _ Hpay Hi)|].
  split.
  - intros k p Hk Hp. specialize (Hfirst k p Hk Hp).
    rewrite Forall_forall in Hmax.
    assert (p <= running_max 0 payouts)
      by (apply Hmax; eapply nth_error_In; exact Hp).
    lia.
  - rewrite <- Htp. reflexivity.
Qed.

Lemma search_returns_first_best_anchor_witness :
  exists f, treaty_CatXL 10 30 = Ok f /\
    exists r i,
      find_window 1 f (times [(0, 5); (1, 25); (2, 7); (3, 25)])
                  (amounts [(0, 5); (1, 25); (2, 7); (3, 25)]) = Ok r /\
      Forall (fun p => p <= maxPayout r) [0; 15; 0; 15] /\
      nth_error (times [(0, 5); (1, 25); (2, 7); (3, 25)]) i
      = Some (canonicalBestTime r) /\
      f (anchor_window 1 (skipn i [(0, 5); (1, 25); (2, 7); (3, 25)]))
      = Ok (maxPayout r) /\
      (forall k p, (k < i)%nat -> nth_error [0; 15; 0; 15] k = Some p ->
                   p < maxPayout r) /\
      allBestTimes r
      = map fst (filter (fun it => snd it =? maxPayout r)
                        (combine (times [(0, 5); (1, 25); (2, 7); (3, 25)])
                                 [0; 15; 0; 15])).
Proof.
  eexists. split; [reflexivity|].
  apply search_returns_first_best_anchor.
  - reflexivity.
  - constructor. lia.
Defined.


